(** * A shallow embedding of [SubjectBuffer] (src/lib.rs) of the
    matching-buffer crate, and the properties of its [read] algorithm.

    Modelling choices:
    - [usize] is [nat]. No arithmetic in [read] can wrap: a [Box<[u8]>]
      holds at most [isize::MAX] bytes, so [buffer.len() * 2] fits a
      [usize], and [len + read_ret] stays below the capacity for a reader
      that honours the [std::io::Read] contract. [i128] is [Z].
    - a [Box<[u8]>] is a [list byte]; its [len()] is the list length, the
      capacity of the window.
    - [read] mutates [self] in place, also on the paths that return an
      error, so it runs in a state monad whose failures keep the state
      reached so far; out-of-bounds slicing is a [Panic].
    - [debug_assert!] is checked only when [debug_assertions] is set, as
      in the Rust build profiles.
    - the [std::io::Read] source of one call is a function from the length
      of the destination slice to either the bytes it delivers (the
      [Ok(n)] case, [n] being the number of bytes) or an I/O error. *)

From Stdlib Require Import Bool List Arith Lia ZArith.
From Stdlib Require Import Init.Byte.
Import ListNotations.

Open Scope nat_scope.
Open Scope bool_scope.

(** ** Data *)

Record SubjectBuffer := mkSubjectBuffer {
  buffer : list byte;
  min_capacity : nat;
  max_capacity : nat;
  max_lookbehind : nat;
  len : nat;
  match_offset : nat;
  source_offset : Z
}.

(** [SubjectBufferSnapshot]: a borrowed view of the content. *)
Module Snapshot.
Record SubjectBufferSnapshot := mk {
  buffer : list byte;
  match_offset : nat
}.
End Snapshot.

(** The errors the crate boxes into [Box<dyn Error>]: the two
    constructor failures, the growth failure and a wrapped I/O error. *)
Inductive Error :=
| InvalidConfig
| CapacityExceeded
| SourceIoError.

Inductive result (T E : Type) :=
| Ok (t : T)
| Err (e : E).
Arguments Ok {T E} t.
Arguments Err {T E} e.

(** The answer of [input_source.read(dst)]. *)
Inductive io_result :=
| IoOk (bytes : list byte)
| IoErr.

Definition Reader := nat -> io_result.

(** The [std::io::Read] contract: [Ok(n)] implies [n <= buf.len()]. *)
Definition reader_ok (r : Reader) : Prop :=
  forall n bs, r n = IoOk bs -> length bs <= n.

(** ** Slices *)

(** [&v[a..b]]; [None] is the panic on a bad range. *)
Definition slice (v : list byte) (a b : nat) : option (list byte) :=
  if (a <=? b) && (b <=? length v) then Some (firstn (b - a) (skipn a v))
  else None.

(** [v[a..b]] overwritten with [part] (of length [b - a]). *)
Definition splice (v : list byte) (a b : nat) (part : list byte) : list byte :=
  firstn a v ++ part ++ skipn b v.

(** [dst.copy_from_slice(src)]: panics when the lengths differ. *)
Definition copy_from_slice (dst src : list byte) : option (list byte) :=
  if length dst =? length src then Some src else None.

(** [v.copy_within(a..b, dest)]: panics when [a > b], [b > v.len()] or
    [dest > v.len() - (b - a)]. *)
Definition copy_within (v : list byte) (a b dest : nat) : option (list byte) :=
  if (a <=? b) && (b <=? length v) && (dest <=? length v - (b - a)) then
    Some (splice v dest (dest + (b - a)) (firstn (b - a) (skipn a v)))
  else None.

(** A reader that got [dst] and delivered [bs] has written
    [min(bs.len(), dst.len())] bytes at the front of [dst]. *)
Definition write_into (dst bs : list byte) : list byte :=
  firstn (length dst) bs ++ skipn (length bs) dst.

(** ** The state/error/panic monad of [&mut self] methods *)

Inductive outcome (A : Type) :=
| Done (a : A) (s : SubjectBuffer)
| Fail (e : Error) (s : SubjectBuffer)
| Panic.
Arguments Done {A} a s.
Arguments Fail {A} e s.
Arguments Panic {A}.

Definition M (A : Type) := SubjectBuffer -> outcome A.

Definition ret {A} (a : A) : M A := fun s => Done a s.

Definition bind {A B} (m : M A) (k : A -> M B) : M B :=
  fun s => match m s with
           | Done a s' => k a s'
           | Fail e s' => Fail e s'
           | Panic => Panic
           end.

Notation "x <- m ;; k" := (bind m (fun x => k))
  (at level 61, m at next level, right associativity).
Notation "m ;; k" := (bind m (fun _ => k))
  (at level 61, right associativity).

Definition get : M SubjectBuffer := fun s => Done s s.
Definition put (s : SubjectBuffer) : M unit := fun _ => Done tt s.
Definition throw {A} (e : Error) : M A := fun s => Fail e s.
Definition unwrap {A} (o : option A) : M A :=
  fun s => match o with Some a => Done a s | None => Panic end.

(** Field updates. *)
Definition set_buffer (b : list byte) (s : SubjectBuffer) :=
  {| buffer := b; min_capacity := min_capacity s;
     max_capacity := max_capacity s; max_lookbehind := max_lookbehind s;
     len := len s; match_offset := match_offset s;
     source_offset := source_offset s |}.
Definition set_len (n : nat) (s : SubjectBuffer) :=
  {| buffer := buffer s; min_capacity := min_capacity s;
     max_capacity := max_capacity s; max_lookbehind := max_lookbehind s;
     len := n; match_offset := match_offset s;
     source_offset := source_offset s |}.
Definition set_match_offset (n : nat) (s : SubjectBuffer) :=
  {| buffer := buffer s; min_capacity := min_capacity s;
     max_capacity := max_capacity s; max_lookbehind := max_lookbehind s;
     len := len s; match_offset := n;
     source_offset := source_offset s |}.
Definition set_source_offset (z : Z) (s : SubjectBuffer) :=
  {| buffer := buffer s; min_capacity := min_capacity s;
     max_capacity := max_capacity s; max_lookbehind := max_lookbehind s;
     len := len s; match_offset := match_offset s;
     source_offset := z |}.

(** ** [SubjectBuffer::new] *)

Definition new (min_capacity max_capacity max_lookbehind : nat)
    : result SubjectBuffer Error :=
  if min_capacity =? 0 then Err InvalidConfig
  else if min_capacity <=? max_lookbehind then Err InvalidConfig
  else Ok {| buffer := repeat Byte.x00 max_lookbehind;
             min_capacity := min_capacity;
             max_capacity := max_capacity;
             max_lookbehind := max_lookbehind;
             len := max_lookbehind;
             match_offset := max_lookbehind;
             source_offset := (- Z.of_nat max_lookbehind)%Z |}.

(** ** The non-mutating accessors *)

Definition capacity (s : SubjectBuffer) : nat := length (buffer s).

Definition verify_match (s : SubjectBuffer) (match_begin_with_lookbehind : nat)
    : bool :=
  if (0 <=? source_offset s)%Z then true
  else (- source_offset s <=? Z.of_nat match_begin_with_lookbehind)%Z.

Definition get_absolute_offset (s : SubjectBuffer) (match_offset : nat) : Z :=
  (Z.of_nat match_offset + source_offset s)%Z.

Section Methods.

Variable debug_assertions : bool.

Definition debug_assert (b : bool) : M unit :=
  fun s => if debug_assertions && negb b then Panic else Done tt s.

(** [bytes_to_process] and [get_snapshot]: [None] is a panic. *)
Definition bytes_to_process (s : SubjectBuffer) : option (list byte) :=
  if debug_assertions && negb (max_lookbehind s <=? match_offset s) then None
  else if debug_assertions && negb (match_offset s <=? len s) then None
  else slice (buffer s) (match_offset s) (len s).

Definition get_snapshot (s : SubjectBuffer)
    : option Snapshot.SubjectBufferSnapshot :=
  if debug_assertions && negb (max_lookbehind s <=? match_offset s) then None
  else if debug_assertions && negb (match_offset s <=? len s) then None
  else match slice (buffer s) 0 (len s) with
       | Some b => Some (Snapshot.mk b (match_offset s))
       | None => None
       end.

(** ** [SubjectBuffer::read] *)

(** Lines 90-126: record the new match offset, then make room either by
    growing the storage or by discarding bytes from its head. *)
Definition make_room (new_match_offset : nat) : M unit :=
  s <- get ;;
  debug_assert (match_offset s <=? new_match_offset) ;;
  put (set_match_offset new_match_offset s) ;;
  s <- get ;;
  debug_assert (match_offset s <=? len s) ;;
  if match_offset s <=? max_lookbehind s then
    next_cap <- (if length (buffer s) <? min_capacity s then ret (min_capacity s)
                 else let next_cap := length (buffer s) * 2 in
                      if max_capacity s <? next_cap then throw CapacityExceeded
                      else ret next_cap) ;;
    let new_buffer := repeat Byte.x00 next_cap in
    dst <- unwrap (slice new_buffer 0 (len s)) ;;
    src <- unwrap (slice (buffer s) 0 (len s)) ;;
    part <- unwrap (copy_from_slice dst src) ;;
    put (set_buffer (splice new_buffer 0 (len s) part) s)
  else
    let num_bytes_discarded := match_offset s - max_lookbehind s in
    debug_assert (0 <? num_bytes_discarded) ;;
    b <- unwrap (copy_within (buffer s) num_bytes_discarded (len s) 0) ;;
    (* [copy_within] has checked [num_bytes_discarded <= len], so the
       subtraction below is exact *)
    put {| buffer := b;
           min_capacity := min_capacity s;
           max_capacity := max_capacity s;
           max_lookbehind := max_lookbehind s;
           len := len s - num_bytes_discarded;
           match_offset := match_offset s - num_bytes_discarded;
           source_offset := (source_offset s + Z.of_nat num_bytes_discarded)%Z |}.

(** Lines 128-137: fill the tail [buffer[len..capacity]] from the source. *)
Definition fill (input_source : Reader) : M bool :=
  s <- get ;;
  let l := length (buffer s) in
  read_dst <- unwrap (slice (buffer s) (len s) l) ;;
  match input_source (length read_dst) with
  | IoOk bs =>
      let read_ret := length bs in
      put (set_len (len s + read_ret)
             (set_buffer (splice (buffer s) (len s) l (write_into read_dst bs)) s)) ;;
      ret (read_ret =? 0)
  | IoErr => throw SourceIoError
  end.

Definition read (new_match_offset : nat) (input_source : Reader) : M bool :=
  make_room new_match_offset ;;
  fill input_source.

End Methods.

(** ** The [std::io::Cursor] of the unit tests *)

(** A cursor over [data] at position [pos]: it delivers as many of the
    remaining bytes as fit the destination. *)
Definition cursor (data : list byte) (pos : nat) : Reader :=
  fun n => IoOk (firstn n (skipn pos data)).

Definition hello : list byte := ["H"; "e"; "l"; "l"; "o"; ","; " "; "w"; "o"; "r"; "l"; "d"; "!"]%byte.


(** ** Reachable windows *)

(** Windows reachable from [new] by successful calls of [read] that obey
    the caller contract of its doc comment ([new_match_offset] not below
    the stored match offset and not past [len]) on sources honouring the
    [std::io::Read] contract. *)
Inductive reachable (d : bool) : SubjectBuffer -> Prop :=
| reachable_new a b c s :
    new a b c = Ok s -> reachable d s
| reachable_read s mo r flag s' :
    reachable d s -> reader_ok r ->
    match_offset s <= mo -> mo <= len s ->
    read d mo r s = Done flag s' -> reachable d s'.

(** The buffer of the grow branch with target capacity [n], and the
    buffer and window of the shift branch. *)
Definition grown (s : SubjectBuffer) (n : nat) : list byte :=
  splice (repeat Byte.x00 n) 0 (len s) (firstn (len s) (buffer s)).

Definition shifted (s : SubjectBuffer) (mo : nat) : SubjectBuffer :=
  let dd := mo - max_lookbehind s in
  {| buffer := splice (buffer s) 0 (0 + (len s - dd))
                 (firstn (len s - dd) (skipn dd (buffer s)));
     min_capacity := min_capacity s;
     max_capacity := max_capacity s;
     max_lookbehind := max_lookbehind s;
     len := len s - dd;
     match_offset := mo - dd;
     source_offset := (source_offset s + Z.of_nat dd)%Z |}.

(** The storage after the fill step delivered [bs]. *)
Definition filled (s : SubjectBuffer) (bs : list byte) : list byte :=
  splice (buffer s) (len s) (length (buffer s))
    (write_into (firstn (length (buffer s) - len s) (skipn (len s) (buffer s))) bs).

(** The invariant of reachable windows. *)
Definition window_inv (s : SubjectBuffer) : Prop :=
  len s <= capacity s /\ 0 < min_capacity s /\
  max_lookbehind s < min_capacity s /\
  match_offset s = max_lookbehind s /\ max_lookbehind s <= len s.


(** ** Further definitions on windows *)

(** The exposed content, [&buffer[..len]] of [get_snapshot]. *)
Definition content (s : SubjectBuffer) : list byte := firstn (len s) (buffer s).

(** How many head bytes a call [read(mo, _)] discards: none in the grow
    branch, [mo - max_lookbehind] in the shift branch. *)
Definition discarded (s : SubjectBuffer) (mo : nat) : nat :=
  if mo <=? max_lookbehind s then 0 else mo - max_lookbehind s.

(** The source as the window sees it: [max_lookbehind] zero bytes of
    padding before the real data. *)
Definition padded (lb : nat) (data : list byte) : list byte :=
  repeat Byte.x00 lb ++ data.

(** A session reading one [std::io::Cursor] over [data], as in the unit
    tests: the window starts from [new], every call obeys the caller
    contract, and the cursor position [pos] advances by the bytes the fill
    step of each call added to the window. *)
Inductive session (d : bool) (data : list byte) : SubjectBuffer -> nat -> Prop :=
| session_new a b c s :
    new a b c = Ok s -> session d data s 0
| session_read s pos mo flag s' :
    session d data s pos ->
    match_offset s <= mo -> mo <= len s ->
    read d mo (cursor data pos) s = Done flag s' ->
    session d data s' (pos + (len s' - (len s - discarded s mo))).

(** The window of a session is the slice
    [[source_offset, source_offset + len)] of the zero-padded source, and
    the cursor stands right at its end. *)
Definition session_inv (data : list byte) (s : SubjectBuffer) (pos : nat) : Prop :=
  (0 <= source_offset s + Z.of_nat (max_lookbehind s))%Z /\
  pos + max_lookbehind s
    = Z.to_nat (source_offset s + Z.of_nat (max_lookbehind s)) + len s /\
  content s = firstn (len s)
                (skipn (Z.to_nat (source_offset s + Z.of_nat (max_lookbehind s)))
                   (padded (max_lookbehind s) data)) /\
  pos <= length data.

(** ** Concrete windows *)

(** [new(2, 4, 0)] before any read. *)
Definition w_fresh : SubjectBuffer :=
  {| buffer := []; min_capacity := 2; max_capacity := 4; max_lookbehind := 0;
     len := 0; match_offset := 0; source_offset := 0 |}.

(** [new(1, 0, 0)] before any read, and after reading ["H"] and ["e"]. *)
Definition w_start : SubjectBuffer :=
  {| buffer := []; min_capacity := 1; max_capacity := 0; max_lookbehind := 0;
     len := 0; match_offset := 0; source_offset := 0 |}.
Definition w_one : SubjectBuffer :=
  {| buffer := ["H"%byte]; min_capacity := 1; max_capacity := 0; max_lookbehind := 0;
     len := 1; match_offset := 0; source_offset := 0 |}.
Definition w_two : SubjectBuffer :=
  {| buffer := ["e"%byte]; min_capacity := 1; max_capacity := 0; max_lookbehind := 0;
     len := 1; match_offset := 0; source_offset := 1 |}.

(** [w_one] after a shift whose fill failed. *)
Definition w_err : SubjectBuffer :=
  {| buffer := ["H"%byte]; min_capacity := 1; max_capacity := 0; max_lookbehind := 0;
     len := 0; match_offset := 0; source_offset := 1 |}.

(** [new(2, 0, 1)] after reading ["H"]. *)
Definition w_lb : SubjectBuffer :=
  {| buffer := [Byte.x00; "H"%byte]; min_capacity := 2; max_capacity := 0;
     max_lookbehind := 1; len := 2; match_offset := 1; source_offset := -1 |}.

(** [new(2, 0, 1)] before any read, and [w_lb] after reading ["e"]. *)
Definition w_lb0 : SubjectBuffer :=
  {| buffer := [Byte.x00]; min_capacity := 2; max_capacity := 0;
     max_lookbehind := 1; len := 1; match_offset := 1; source_offset := -1 |}.
Definition w_lb2 : SubjectBuffer :=
  {| buffer := ["H"%byte; "e"%byte]; min_capacity := 2; max_capacity := 0;
     max_lookbehind := 1; len := 2; match_offset := 1; source_offset := 0 |}.

(** The window of the [test_realloc] unit test before its failing read. *)
Definition w_full : SubjectBuffer :=
  {| buffer := ["H"%byte; "e"%byte; "l"%byte; "l"%byte]; min_capacity := 2;
     max_capacity := 4; max_lookbehind := 0; len := 4; match_offset := 0;
     source_offset := 0 |}.

(** [w_one] after the read that finds the one-byte source ["H"] exhausted. *)
Definition w_end : SubjectBuffer :=
  {| buffer := ["H"%byte]; min_capacity := 1; max_capacity := 0; max_lookbehind := 0;
     len := 0; match_offset := 0; source_offset := 1 |}.

(** The unit tests of lib.rs, replayed on the embedding (in the debug
    profile the tests run in). *)
Module Tests.

Definition after {A} (o : outcome A) : option SubjectBuffer :=
  match o with Done _ s => Some s | _ => None end.

Definition content (o : option SubjectBuffer) : option (list byte) :=
  match o with
  | Some s => match get_snapshot true s with
              | Some sn => Some (Snapshot.buffer sn)
              | None => None
              end
  | None => None
  end.

Definition step (o : option SubjectBuffer) (mo pos : nat) : option (outcome bool) :=
  match o with Some s => Some (read true mo (cursor hello pos) s) | None => None end.

Definition chunks_lb0 :=
  match new 2 0 1 with Ok s => Some s | Err _ => None end.
Definition chunks_lb1 := option_map (read true 1 (cursor hello 0)) chunks_lb0.
Definition chunks_lb2 :=
  match chunks_lb1 with
  | Some (Done _ s) => Some (read true (len s) (cursor hello 1) s)
  | _ => None
  end.

Example chunks_with_lookbehind_first :
  match chunks_lb1 with
  | Some (Done b s) =>
      b = false /\ content (Some s) = Some [Byte.x00; "H"%byte]
      /\ match_offset s = 1 /\ source_offset s = (-1)%Z
      /\ verify_match s 0 = false /\ verify_match s 1 = true
  | _ => False
  end.
Proof. vm_compute. repeat split. Qed.

Example chunks_with_lookbehind_second :
  match chunks_lb2 with
  | Some (Done b s) =>
      b = false /\ content (Some s) = Some ["H"%byte; "e"%byte]
      /\ match_offset s = 1 /\ source_offset s = 0%Z
      /\ verify_match s 0 = true /\ verify_match s 1 = true
  | _ => False
  end.
Proof. vm_compute. repeat split. Qed.

Definition realloc0 :=
  match new 2 4 0 with Ok s => Some s | Err _ => None end.
Definition realloc1 := option_map (read true 0 (cursor hello 0)) realloc0.
Definition realloc2 :=
  match realloc1 with Some (Done _ s) => Some (read true 0 (cursor hello 2) s) | _ => None end.
Definition realloc3 :=
  match realloc2 with Some (Done _ s) => Some (read true 0 (cursor hello 4) s) | _ => None end.

Example realloc_steps :
  (match realloc1 with Some (Done false s) => len s = 2 | _ => False end) /\
  (match realloc2 with
   | Some (Done false s) => content (Some s) = Some (firstn 4 hello)
                            /\ match_offset s = 0
   | _ => False end) /\
  (match realloc3 with Some (Fail CapacityExceeded _) => True | _ => False end).
Proof. vm_compute. repeat split. Qed.

End Tests.

(** ** Lemmas on slices *)

Lemma length_splice v a b part :
  a <= b -> b <= length v ->
  length (splice v a b part) = a + length part + (length v - b).
Proof.
  intros. unfold splice. rewrite !length_app, length_firstn, length_skipn. lia.
Qed.

Lemma firstn_splice v a b part :
  a <= length v -> firstn a (splice v a b part) = firstn a v.
Proof.
  intros. unfold splice. rewrite firstn_app, length_firstn.
  replace (a - Nat.min a (length v)) with 0 by lia.
  rewrite firstn_firstn, Nat.min_id. simpl. apply app_nil_r.
Qed.

Lemma firstn_splice_part v a b part :
  a <= length v ->
  firstn (a + length part) (splice v a b part) = firstn a v ++ part.
Proof.
  intros. unfold splice. rewrite firstn_app, length_firstn.
  replace (a + length part - Nat.min a (length v)) with (length part) by lia.
  rewrite firstn_app, firstn_all, Nat.sub_diag. simpl. rewrite app_nil_r.
  f_equal. rewrite firstn_firstn. f_equal. lia.
Qed.

Lemma length_firstn_skipn (v : list byte) a n :
  a + n <= length v -> length (firstn n (skipn a v)) = n.
Proof. intros. rewrite length_firstn, length_skipn. lia. Qed.

Lemma slice_ok v a b :
  a <= b -> b <= length v -> slice v a b = Some (firstn (b - a) (skipn a v)).
Proof.
  intros. unfold slice.
  apply Nat.leb_le in H. apply Nat.leb_le in H0. now rewrite H, H0.
Qed.

Lemma length_write_into dst bs : length (write_into dst bs) = length dst.
Proof.
  unfold write_into. rewrite length_app, length_firstn, length_skipn. lia.
Qed.

Lemma length_grown s n :
  len s <= length (buffer s) -> len s <= n -> length (grown s n) = n.
Proof.
  intros. unfold grown. rewrite length_splice, repeat_length, length_firstn;
    rewrite ?repeat_length; lia.
Qed.

Lemma firstn_grown s n :
  len s <= length (buffer s) -> len s <= n ->
  firstn (len s) (grown s n) = firstn (len s) (buffer s).
Proof.
  intros. unfold grown.
  pose proof (firstn_splice_part (repeat Byte.x00 n) 0 (len s)
                (firstn (len s) (buffer s))) as E.
  rewrite length_firstn, repeat_length in E. simpl in E.
  rewrite Nat.min_l in E by lia. apply E. lia.
Qed.

Lemma length_filled s bs :
  len s <= length (buffer s) -> length (filled s bs) = length (buffer s).
Proof.
  intros. unfold filled.
  rewrite length_splice, length_write_into, length_firstn_skipn; lia.
Qed.

Lemma firstn_filled s bs :
  len s <= length (buffer s) ->
  firstn (len s) (filled s bs) = firstn (len s) (buffer s).
Proof. intros. unfold filled. apply firstn_splice. exact H. Qed.

(** ** The two steps of [read], computed *)

Lemma fill_eq r s :
  len s <= length (buffer s) ->
  fill r s =
  match r (length (buffer s) - len s) with
  | IoOk bs => Done (length bs =? 0) (set_len (len s + length bs) (set_buffer (filled s bs) s))
  | IoErr => Fail SourceIoError s
  end.
Proof.
  intros H. unfold fill, bind, get, unwrap, put, ret, throw.
  rewrite slice_ok by lia.
  rewrite length_firstn_skipn by lia. destruct (r _); reflexivity.
Qed.

Ltac grow_copy n :=
  rewrite !slice_ok by (rewrite ?repeat_length; lia);
  unfold copy_from_slice; rewrite !Nat.sub_0_r; cbn [skipn];
  rewrite !length_firstn, repeat_length, !Nat.min_l by lia;
  rewrite Nat.eqb_refl; reflexivity.

Lemma make_room_grow_eq d mo s :
  len s <= length (buffer s) -> mo <= max_lookbehind s ->
  (d = true -> match_offset s <= mo <= len s) ->
  make_room d mo s =
  if length (buffer s) <? min_capacity s then
    Done tt (set_buffer (grown s (min_capacity s)) (set_match_offset mo s))
  else if max_capacity s <? length (buffer s) * 2 then
    Fail CapacityExceeded (set_match_offset mo s)
  else Done tt (set_buffer (grown s (length (buffer s) * 2)) (set_match_offset mo s)).
Proof.
  intros Hinv Hmo Hd.
  unfold make_room, bind, get, put, debug_assert, unwrap, ret, throw.
  cbn [match_offset len max_lookbehind buffer set_match_offset min_capacity max_capacity].
  assert (E1 : d && negb (match_offset s <=? mo) = false).
  { destruct d; [destruct (Hd eq_refl) as [H1 _]; apply Nat.leb_le in H1; now rewrite H1 | reflexivity]. }
  assert (E2 : d && negb (mo <=? len s) = false).
  { destruct d; [destruct (Hd eq_refl) as [_ H1]; apply Nat.leb_le in H1; now rewrite H1 | reflexivity]. }
  rewrite E1, E2. apply Nat.leb_le in Hmo. rewrite Hmo.
  destruct (length (buffer s) <? min_capacity s) eqn:Ec.
  - apply Nat.ltb_lt in Ec. grow_copy (min_capacity s).
  - destruct (max_capacity s <? length (buffer s) * 2) eqn:Em; [reflexivity|].
    grow_copy (length (buffer s) * 2).
Qed.

Lemma make_room_shift_eq d mo s :
  len s <= length (buffer s) -> max_lookbehind s < mo -> mo <= len s ->
  (d = true -> match_offset s <= mo) ->
  make_room d mo s = Done tt (shifted s mo).
Proof.
  intros Hinv Hlt Hle Hd.
  unfold make_room, bind, get, put, debug_assert, unwrap, ret, throw.
  cbn [match_offset len max_lookbehind buffer set_match_offset min_capacity max_capacity].
  assert (E1 : d && negb (match_offset s <=? mo) = false).
  { destruct d; [apply Nat.leb_le in Hd; [now rewrite Hd | reflexivity] | reflexivity]. }
  assert (E2 : (mo <=? len s) = true) by (apply Nat.leb_le; lia).
  assert (E3 : (mo <=? max_lookbehind s) = false) by (apply Nat.leb_gt; lia).
  assert (E4 : (0 <? mo - max_lookbehind s) = true) by (apply Nat.ltb_lt; lia).
  rewrite E1, E2, E3, E4, andb_false_r.
  unfold copy_within.
  assert (E5 : (mo - max_lookbehind s <=? len s) && (len s <=? length (buffer s))
               && (0 <=? length (buffer s) - (len s - (mo - max_lookbehind s))) = true).
  { rewrite !andb_true_iff, !Nat.leb_le. lia. }
  rewrite E5. reflexivity.
Qed.

Lemma read_eq d mo r s :
  read d mo r s =
  match make_room d mo s with
  | Done _ s1 => fill r s1
  | Fail e s1 => Fail e s1
  | Panic => Panic
  end.
Proof. reflexivity. Qed.

Lemma capacity_fill r s flag s' :
  len s <= capacity s -> fill r s = Done flag s' -> capacity s' = capacity s.
Proof.
  unfold capacity. intros H E. rewrite fill_eq in E by exact H.
  destruct (r _); inversion E; subst; clear E.
  apply length_filled. exact H.
Qed.

Lemma firstn_fill r s flag s' :
  len s <= capacity s -> fill r s = Done flag s' ->
  firstn (len s) (buffer s') = firstn (len s) (buffer s) /\
  match_offset s' = match_offset s.
Proof.
  unfold capacity. intros H E. rewrite fill_eq in E by exact H.
  destruct (r _); inversion E; subst; clear E.
  split; [apply firstn_filled; exact H | reflexivity].
Qed.

(** ** C1: the grow branch *)

(** C1. When [match_position <= max_lookbehind], [read] grows the storage
    to [min_capacity] while the capacity is below it and doubles it
    otherwise; it fails with [CapacityExceeded] exactly when it doubles
    past [max_capacity] (the growth to [min_capacity] is not checked); on
    success the first [len] bytes and the match position are kept. *)
Theorem read_grow_capacity d mo r s :
  len s <= capacity s -> mo <= max_lookbehind s ->
  (d = true -> match_offset s <= mo <= len s) ->
  ((exists s', read d mo r s = Fail CapacityExceeded s') <->
     min_capacity s <= capacity s /\ max_capacity s < capacity s * 2) /\
  (forall flag s', read d mo r s = Done flag s' ->
     capacity s' = (if capacity s <? min_capacity s then min_capacity s
                    else capacity s * 2) /\
     firstn (len s) (buffer s') = firstn (len s) (buffer s) /\
     match_offset s' = mo).
Proof.
  unfold capacity. intros Hinv Hmo Hd.
  rewrite read_eq, make_room_grow_eq by assumption.
  destruct (Nat.ltb_spec (length (buffer s)) (min_capacity s)) as [Ec | Ec].
  - assert (Hl : len (set_buffer (grown s (min_capacity s)) (set_match_offset mo s))
                 <= capacity (set_buffer (grown s (min_capacity s)) (set_match_offset mo s))).
    { unfold capacity; simpl. rewrite length_grown; lia. }
    split.
    + split; [intros [s' E] | lia].
      rewrite fill_eq in E by exact Hl. destruct (r _); discriminate.
    + intros flag s' E.
      pose proof (capacity_fill _ _ _ _ Hl E) as Hc.
      destruct (firstn_fill _ _ _ _ Hl E) as [Hf Hm].
      unfold capacity in Hc; simpl in Hc, Hf, Hm.
      rewrite length_grown in Hc by lia. rewrite firstn_grown in Hf by lia.
      auto.
  - destruct (Nat.ltb_spec (max_capacity s) (length (buffer s) * 2)) as [Em | Em].
    + split; [split; [intros _; split; lia | intros _; eauto]
             | intros ? ? E; discriminate].
    + assert (Hl : len (set_buffer (grown s (length (buffer s) * 2)) (set_match_offset mo s))
                   <= capacity (set_buffer (grown s (length (buffer s) * 2))
                                  (set_match_offset mo s))).
      { unfold capacity; simpl. rewrite length_grown; lia. }
      split.
      * split; [intros [s' E] | lia].
        rewrite fill_eq in E by exact Hl. destruct (r _); discriminate.
      * intros flag s' E.
        pose proof (capacity_fill _ _ _ _ Hl E) as Hc.
        destruct (firstn_fill _ _ _ _ Hl E) as [Hf Hm].
        unfold capacity in Hc; simpl in Hc, Hf, Hm.
        rewrite length_grown in Hc by lia. rewrite firstn_grown in Hf by lia.
        auto.
Qed.

(** ** C2: the shift branch *)

(** C2. When [max_lookbehind < match_position <= len], [read] discards
    [match_position - max_lookbehind > 0] bytes: the bytes
    [[discarded, len)] move to the front of the storage, [len] and the
    match position drop by [discarded], [source_offset] grows by it, and
    the capacity stays as it is (also through the fill step). *)
Theorem read_shift d mo r s :
  len s <= capacity s -> max_lookbehind s < mo -> mo <= len s ->
  (d = true -> match_offset s <= mo) ->
  let discarded := mo - max_lookbehind s in
  exists s1,
    make_room d mo s = Done tt s1 /\ read d mo r s = fill r s1 /\
    0 < discarded /\
    firstn (len s - discarded) (buffer s1)
      = firstn (len s - discarded) (skipn discarded (buffer s)) /\
    len s1 = len s - discarded /\
    match_offset s1 = mo - discarded /\
    source_offset s1 = (source_offset s + Z.of_nat discarded)%Z /\
    capacity s1 = capacity s /\
    (forall flag s', read d mo r s = Done flag s' -> capacity s' = capacity s).
Proof.
  intros Hinv Hlt Hle Hd discarded. unfold capacity in *.
  pose proof (make_room_shift_eq d mo s Hinv Hlt Hle Hd) as E.
  assert (Hlen : length (buffer (shifted s mo)) = length (buffer s)).
  { unfold shifted; simpl. rewrite length_splice, length_firstn_skipn; lia. }
  exists (shifted s mo).
  split; [exact E |].
  split; [rewrite read_eq, E; reflexivity |].
  split; [unfold discarded; lia |].
  split.
  { unfold shifted; simpl.
    pose proof (firstn_splice_part (buffer s) 0 (0 + (len s - discarded))
                  (firstn (len s - discarded) (skipn discarded (buffer s)))) as F.
    rewrite length_firstn_skipn in F by lia. simpl in F. apply F. lia. }
  do 3 (split; [reflexivity |]).
  split; [exact Hlen |].
  intros flag s' E'. rewrite read_eq, E in E'.
  rewrite <- Hlen. apply (capacity_fill r (shifted s mo) flag s'); [|exact E'].
  unfold capacity; rewrite Hlen. simpl. lia.
Qed.

(** ** One successful step of [read] *)

Lemma fill_done r s flag s' :
  len s <= capacity s -> fill r s = Done flag s' ->
  exists bs, r (capacity s - len s) = IoOk bs /\
    flag = (length bs =? 0) /\
    len s' = len s + length bs /\ capacity s' = capacity s /\
    match_offset s' = match_offset s /\ source_offset s' = source_offset s /\
    min_capacity s' = min_capacity s /\ max_capacity s' = max_capacity s /\
    max_lookbehind s' = max_lookbehind s.
Proof.
  unfold capacity. intros H E. rewrite fill_eq in E by exact H.
  destruct (r _) as [bs |] eqn:Er; inversion E; subst; clear E.
  exists bs. simpl. rewrite length_filled by exact H. repeat split; auto.
Qed.

Lemma make_room_done d mo s u s1 :
  len s <= capacity s -> 0 < min_capacity s ->
  match_offset s <= mo -> mo <= len s ->
  make_room d mo s = Done u s1 ->
  len s1 < capacity s1 /\ capacity s <= capacity s1 /\
  min_capacity s1 = min_capacity s /\ max_capacity s1 = max_capacity s /\
  max_lookbehind s1 = max_lookbehind s /\
  ((mo <= max_lookbehind s /\ len s1 = len s /\ match_offset s1 = mo /\
    source_offset s1 = source_offset s) \/
   (max_lookbehind s < mo /\ len s1 = len s - (mo - max_lookbehind s) /\
    match_offset s1 = max_lookbehind s /\
    source_offset s1 = (source_offset s + Z.of_nat (mo - max_lookbehind s))%Z)).
Proof.
  unfold capacity. intros Hinv Hmin H1 H2 E.
  destruct (Nat.le_gt_cases mo (max_lookbehind s)) as [Hg | Hs].
  - rewrite make_room_grow_eq in E by (auto; lia).
    destruct (Nat.ltb_spec (length (buffer s)) (min_capacity s)).
    + inversion E; subst; clear E. simpl.
      rewrite length_grown by lia. repeat split; try lia. all: left; auto.
    + destruct (Nat.ltb_spec (max_capacity s) (length (buffer s) * 2));
        [discriminate |].
      inversion E; subst; clear E. simpl.
      rewrite length_grown by lia. repeat split; try lia. all: left; auto.
  - rewrite make_room_shift_eq in E by (auto; lia).
    inversion E; subst; clear E. unfold shifted; simpl.
    rewrite length_splice, length_firstn_skipn by lia.
    repeat split; try lia. all: right; repeat split; lia.
Qed.

Lemma make_room_fail d mo s e s1 :
  make_room d mo s = Fail e s1 ->
  e = CapacityExceeded /\ s1 = set_match_offset mo s.
Proof.
  unfold make_room, bind, get, put, debug_assert, unwrap, ret, throw.
  cbn [match_offset len max_lookbehind buffer set_match_offset min_capacity max_capacity].
  intros E.
  repeat match type of E with
  | context [if ?b then _ else _] => destruct b
  | context [match ?x with Some _ => _ | None => _ end] => destruct x
  end; try discriminate; inversion E; auto.
Qed.

Lemma fill_fail r s e s1 :
  fill r s = Fail e s1 -> e = SourceIoError /\ s1 = s.
Proof.
  unfold fill, bind, get, put, unwrap, ret, throw. intros E.
  destruct (slice _ _ _); [| discriminate].
  destruct (r _); inversion E; auto.
Qed.

Lemma set_match_offset_same s : set_match_offset (match_offset s) s = s.
Proof. destruct s; reflexivity. Qed.

(** ** C3: the completion flag *)

(** C3, counterexample. The second read of the [simple_chunks] unit test ([min_capacity = 1],
    no lookbehind): the call obeys the caller contract, returns [false],
    and the length is 1 before and after it. *)
Lemma read_false_same_length :
  match new 1 0 0 with
  | Ok s0 =>
      match read true 0 (cursor hello 0) s0 with
      | Done _ s1 =>
          match read true (len s1) (cursor hello 1) s1 with
          | Done false s2 =>
              match_offset s1 <= len s1 /\ len s1 = 1 /\ len s2 = len s1
          | _ => False
          end
      | _ => False
      end
  | Err _ => False
  end.
Proof. vm_compute. auto. Qed.

(** C3 (as amended). On a window with [len <= capacity] and
    [min_capacity > 0], a successful call obeying the caller contract first
    leaves at least one byte of tail space; the flag is [true] exactly when
    the fill step got no bytes, and a [false] flag means the fill step
    added bytes to the length the grow or shift step left. *)
Theorem read_flag_fill d mo r s flag s' :
  len s <= capacity s -> 0 < min_capacity s ->
  match_offset s <= mo -> mo <= len s ->
  read d mo r s = Done flag s' ->
  exists s1 bs,
    make_room d mo s = Done tt s1 /\ len s1 < capacity s1 /\
    r (capacity s1 - len s1) = IoOk bs /\
    len s' = len s1 + length bs /\
    (flag = true <-> bs = []) /\
    (flag = false -> len s1 < len s').
Proof.
  intros Hinv Hmin H1 H2 E. rewrite read_eq in E.
  destruct (make_room d mo s) as [u s1 | e s1 |] eqn:Em; try discriminate.
  destruct u.
  destruct (make_room_done d mo s tt s1 Hinv Hmin H1 H2 Em) as [Hroom _].
  destruct (fill_done r s1 flag s' ltac:(lia) E) as (bs & Hr & Hf & Hl & _).
  exists s1, bs. split; [reflexivity |]. split; [exact Hroom |].
  split; [exact Hr |]. split; [exact Hl |]. subst flag.
  destruct bs as [| b bs]; simpl in *.
  - split; [tauto | discriminate].
  - split; [split; discriminate | intros _; lia].
Qed.

(** ** C4: failed reads *)

(** C4, counterexample. A reachable window ([min_capacity = 1], no
    lookbehind, one byte read)
    whose next read, obeying the caller contract, fails with an I/O error
    after the shift step has already discarded the byte: the length and
    the source offset differ from their values before the call. *)
Lemma read_io_error_partial :
  match new 1 0 0 with
  | Ok s0 =>
      match read true 0 (cursor hello 0) s0 with
      | Done _ s1 =>
          match read true 1 (fun _ => IoErr) s1 with
          | Fail SourceIoError s2 =>
              match_offset s1 <= 1 <= len s1 /\
              len s2 <> len s1 /\ source_offset s2 <> source_offset s1
          | _ => False
          end
      | _ => False
      end
  | Err _ => False
  end.
Proof. vm_compute. split; [lia | split; discriminate]. Qed.

(** C4 (as amended). A failed [read] is not rolled back. On
    [CapacityExceeded] the window is the one before the call with the
    stored match offset set to the argument (so unchanged when the
    argument is the stored offset); on [SourceIoError] it is the window
    the grow or shift step produced, without any byte added. *)
Theorem read_error_state d mo r s e s' :
  read d mo r s = Fail e s' ->
  (e = CapacityExceeded /\ s' = set_match_offset mo s /\
   (mo = match_offset s -> s' = s)) \/
  (e = SourceIoError /\ make_room d mo s = Done tt s').
Proof.
  rewrite read_eq. intros E.
  destruct (make_room d mo s) as [u s1 | e1 s1 |] eqn:Em; try discriminate.
  - destruct u. apply fill_fail in E as [-> ->]. right. auto.
  - inversion E; subst; clear E.
    apply make_room_fail in Em as [-> ->]. left.
    repeat split. intros ->. apply set_match_offset_same.
Qed.

(** ** C5: construction *)

(** C5. [new] fails exactly when [min_capacity = 0] or
    [min_capacity <= max_lookbehind]; [max_capacity] plays no part in the
    decision, so in particular a [max_capacity] below [min_capacity] is
    accepted. *)
Theorem new_validation a b c :
  ((exists e, new a b c = Err e) <-> a = 0 \/ a <= c) /\
  (forall b', (exists s, new a b c = Ok s) <-> (exists s, new a b' c = Ok s)) /\
  (b < a -> (0 < c < a \/ c = 0) -> exists s, new a b c = Ok s).
Proof.
  unfold new.
  destruct (Nat.eqb_spec a 0); [| destruct (Nat.leb_spec a c)].
  - split; [split; [intros _; auto | intros _; eauto] |].
    split; [intros b'; split; intros [s E]; discriminate | intros; lia].
  - split; [split; [intros _; auto | intros _; eauto] |].
    split; [intros b'; split; intros [s E]; discriminate | intros; lia].
  - split; [split; [intros [e' E]; discriminate | intros; lia] |].
    split; [intros b'; split; intros _; eauto | intros; eauto].
Qed.

(** ** C6: [verify_match] *)

(** C6. [verify_match p] holds for every [p] once [source_offset >= 0];
    before that it holds exactly when [p >= -source_offset]; so it fails
    exactly on the positions inside the remaining zero padding. *)
Theorem verify_match_spec s p :
  ((0 <= source_offset s)%Z -> verify_match s p = true) /\
  ((source_offset s < 0)%Z ->
     (verify_match s p = true <-> (- source_offset s <= Z.of_nat p)%Z)) /\
  (verify_match s p = false <->
     (source_offset s < 0)%Z /\ (Z.of_nat p < - source_offset s)%Z).
Proof.
  unfold verify_match.
  destruct (Z.leb_spec 0 (source_offset s)).
  - split; [auto |]. split; [intros; lia |]. split; [discriminate | lia].
  - destruct (Z.leb_spec (- source_offset s) (Z.of_nat p)).
    + split; [lia |]. split; [tauto |]. split; [discriminate | lia].
    + split; [lia |]. split; [split; [discriminate | lia] |]. split; [lia | auto].
Qed.

(** ** C8: the window after construction *)

(** C8. A valid configuration yields a window whose exposed content is
    [max_lookbehind] zero bytes, with [len = max_lookbehind],
    [source_offset = -max_lookbehind] and
    [get_absolute_offset(0) = -max_lookbehind]. *)
Theorem new_initial d a b c :
  0 < a -> c < a ->
  exists s, new a b c = Ok s /\
    get_snapshot d s = Some (Snapshot.mk (repeat Byte.x00 c) c) /\
    buffer s = repeat Byte.x00 c /\ len s = c /\
    source_offset s = (- Z.of_nat c)%Z /\
    get_absolute_offset s 0 = (- Z.of_nat c)%Z.
Proof.
  intros Ha Hc. unfold new.
  replace (a =? 0) with false by (symmetry; apply Nat.eqb_neq; lia).
  replace (a <=? c) with false by (symmetry; apply Nat.leb_gt; lia).
  eexists. split; [reflexivity |]. cbn [buffer len source_offset].
  split; [| repeat split].
  unfold get_snapshot; cbn [buffer len match_offset max_lookbehind].
  rewrite Nat.leb_refl, andb_false_r.
  rewrite slice_ok by (rewrite ?repeat_length; lia).
  rewrite Nat.sub_0_r. cbn [skipn].
  rewrite firstn_all2 by (rewrite repeat_length; lia). reflexivity.
Qed.

(** ** C10: no panic in [read] *)

(** C10. On a window with [len <= capacity], a call obeying the caller
    contract never panics: every slice in [read] is in bounds and every
    [debug_assert!] holds, in both build profiles. *)
Theorem read_no_panic d mo r s :
  len s <= capacity s -> match_offset s <= mo -> mo <= len s ->
  read d mo r s <> Panic.
Proof.
  unfold capacity. intros Hinv H1 H2. rewrite read_eq.
  destruct (Nat.le_gt_cases mo (max_lookbehind s)).
  - rewrite make_room_grow_eq by (auto; lia).
    destruct (Nat.ltb_spec (length (buffer s)) (min_capacity s));
      [| destruct (Nat.ltb_spec (max_capacity s) (length (buffer s) * 2));
         [discriminate |]];
      rewrite fill_eq by (simpl; rewrite length_grown; lia);
      destruct (r _); discriminate.
  - rewrite make_room_shift_eq by (auto; lia).
    rewrite fill_eq.
    + destruct (r _); discriminate.
    + unfold shifted; simpl. rewrite length_splice, length_firstn_skipn; lia.
Qed.

(** ** The window invariant of reachable windows *)

Lemma new_inv a b c s : new a b c = Ok s -> window_inv s.
Proof.
  unfold new, window_inv, capacity.
  destruct (Nat.eqb_spec a 0); [discriminate |].
  destruct (Nat.leb_spec a c); [discriminate |].
  intros E; inversion E; subst; clear E. simpl.
  rewrite repeat_length. lia.
Qed.

(** One successful contract-obeying call, on a window with the
    invariant: what it does to the invariant, the capacity and the source
    offset. *)
Lemma read_step_inv d mo r s flag s' :
  window_inv s -> reader_ok r ->
  match_offset s <= mo -> mo <= len s ->
  read d mo r s = Done flag s' ->
  window_inv s' /\ capacity s <= capacity s' /\
  max_lookbehind s' = max_lookbehind s /\
  ((mo <= max_lookbehind s /\ source_offset s' = source_offset s) \/
   (max_lookbehind s < mo /\
    source_offset s' = (source_offset s + Z.of_nat (mo - max_lookbehind s))%Z)).
Proof.
  intros (Hinv & Hmin & Hlm & Hmo & Hlb) Hr H1 H2 E.
  rewrite read_eq in E.
  destruct (make_room d mo s) as [u s1 | e s1 |] eqn:Em; try discriminate.
  destruct (make_room_done d mo s u s1 Hinv Hmin H1 H2 Em)
    as (Hroom & Hcap & Hmin1 & Hmax1 & Hlb1 & Hcase).
  destruct (fill_done r s1 flag s' ltac:(lia) E)
    as (bs & Hbs & _ & Hl & Hc & Hm & Hso & Hmin' & _ & Hlb').
  pose proof (Hr _ _ Hbs) as Hle.
  unfold window_inv.
  destruct Hcase as [(Hg & Hl1 & Hm1 & Hs1) | (Hs & Hl1 & Hm1 & Hs1)].
  - repeat split; try lia. all: left; split; [exact Hg | congruence].
  - repeat split; try lia. all: right; split; [exact Hs | congruence].
Qed.

Lemma reachable_inv d s : reachable d s -> window_inv s.
Proof.
  induction 1 as [a b c s E | s mo r flag s' _ IH Hr H1 H2 E].
  - exact (new_inv a b c s E).
  - exact (proj1 (read_step_inv d mo r s flag s' IH Hr H1 H2 E)).
Qed.

(** ** C7: monotone capacity and source offset *)

(** C7. Along a session of successful contract-obeying reads, after every
    call [len <= capacity], the capacity has not shrunk, and
    [source_offset] has not decreased; it grows exactly in the calls that
    discard bytes from the head ([match_position > max_lookbehind]). *)
Theorem read_monotone d mo r s flag s' :
  reachable d s -> reader_ok r ->
  match_offset s <= mo -> mo <= len s ->
  read d mo r s = Done flag s' ->
  len s' <= capacity s' /\ capacity s <= capacity s' /\
  (source_offset s <= source_offset s')%Z /\
  ((source_offset s < source_offset s')%Z <-> max_lookbehind s < mo).
Proof.
  intros Hreach Hr H1 H2 E.
  destruct (read_step_inv d mo r s flag s' (reachable_inv d s Hreach) Hr H1 H2 E)
    as ((Hinv' & _) & Hcap & _ & Hcase).
  split; [exact Hinv' |]. split; [exact Hcap |].
  destruct Hcase as [(Hg & Hs) | (Hs & Hso)]; rewrite ?Hs, ?Hso; lia.
Qed.

(** ** C9: the stored match offset *)

(** C9. In every reachable window the stored match offset is
    [max_lookbehind]: [get_snapshot] reports it as the match offset and
    [bytes_to_process] is [buffer[max_lookbehind..len]]. *)
Theorem reachable_match_offset d s :
  reachable d s ->
  match_offset s = max_lookbehind s /\
  get_snapshot d s = Some (Snapshot.mk (firstn (len s) (buffer s)) (max_lookbehind s)) /\
  bytes_to_process d s =
    Some (firstn (len s - max_lookbehind s) (skipn (max_lookbehind s) (buffer s))).
Proof.
  intros Hreach.
  destruct (reachable_inv d s Hreach) as (Hinv & _ & _ & Hmo & Hlb).
  unfold capacity in Hinv.
  split; [exact Hmo |].
  assert (Ea : (max_lookbehind s <=? match_offset s) = true)
    by (apply Nat.leb_le; lia).
  assert (Eb : (match_offset s <=? len s) = true) by (apply Nat.leb_le; lia).
  unfold get_snapshot, bytes_to_process. rewrite Ea, Eb, andb_false_r.
  rewrite !slice_ok by lia. rewrite Hmo, Nat.sub_0_r. split; reflexivity.
Qed.

(** ** Concrete runs of the theorems *)

Lemma reader_ok_cursor data pos : reader_ok (cursor data pos).
Proof.
  intros n bs E. inversion E. rewrite length_firstn. lia.
Qed.

Lemma reachable_w_one : reachable true w_one.
Proof.
  apply (reachable_read true w_start 0 (cursor hello 0) false w_one).
  - apply (reachable_new true 1 0 0 w_start). reflexivity.
  - apply reader_ok_cursor.
  - simpl; lia.
  - simpl; lia.
  - vm_compute. reflexivity.
Qed.

Lemma read_grow_capacity_witness :
  len w_fresh <= capacity w_fresh /\ 0 <= max_lookbehind w_fresh /\
  (forall flag s', read true 0 (cursor hello 0) w_fresh = Done flag s' ->
     capacity s' = 2 /\ match_offset s' = 0).
Proof.
  split; [vm_compute; lia |]. split; [vm_compute; lia |].
  destruct (read_grow_capacity true 0 (cursor hello 0) w_fresh) as [_ H];
    [vm_compute; lia | vm_compute; lia | intros _; vm_compute; lia |].
  intros flag s' E. destruct (H flag s' E) as (Hc & _ & Hm). split; assumption.
Defined.

Lemma read_shift_witness :
  len w_one <= capacity w_one /\ max_lookbehind w_one < 1 /\ 1 <= len w_one /\
  exists s1, make_room true 1 w_one = Done tt s1 /\ len s1 = 0 /\
             source_offset s1 = 1%Z.
Proof.
  split; [vm_compute; lia |]. split; [vm_compute; lia |]. split; [vm_compute; lia |].
  destruct (read_shift true 1 (cursor hello 1) w_one) as (s1 & E & _ & _ & _ & Hl & _ & Hs & _);
    [vm_compute; lia | vm_compute; lia | vm_compute; lia | intros _; vm_compute; lia |].
  exists s1. split; [exact E |]. split; [exact Hl | exact Hs].
Defined.

Lemma read_flag_fill_witness :
  read true 1 (cursor hello 1) w_one = Done false w_two /\
  exists s1 (bs : list byte), make_room true 1 w_one = Done tt s1 /\ len s1 < capacity s1 /\
    len w_two = len s1 + length bs /\ len s1 < len w_two.
Proof.
  split; [vm_compute; reflexivity |].
  destruct (read_flag_fill true 1 (cursor hello 1) w_one false w_two)
    as (s1 & bs & E & Hr & _ & Hl & _ & Hf);
    [vm_compute; lia | vm_compute; lia | vm_compute; lia | vm_compute; lia
    | vm_compute; reflexivity |].
  exists s1, bs. repeat split; auto.
Defined.

Lemma read_error_state_witness :
  read true 1 (fun _ => IoErr) w_one = Fail SourceIoError w_err /\
  make_room true 1 w_one = Done tt w_err.
Proof.
  split; [vm_compute; reflexivity |].
  destruct (read_error_state true 1 (fun _ => IoErr) w_one SourceIoError w_err)
    as [(H & _) | (_ & H)]; [vm_compute; reflexivity | discriminate | exact H].
Defined.

Lemma new_validation_witness :
  1 < 2 /\ (0 < 1 < 2 \/ 1 = 0) /\ exists s, new 2 1 1 = Ok s.
Proof.
  split; [lia |]. split; [left; lia |].
  destruct (new_validation 2 1 1) as (_ & _ & H). apply H; [lia | left; lia].
Defined.

Lemma verify_match_spec_witness :
  (source_offset w_lb < 0)%Z /\ verify_match w_lb 1 = true /\
  verify_match w_lb 0 = false.
Proof.
  split; [vm_compute; reflexivity |].
  destruct (verify_match_spec w_lb 1) as (_ & H1 & _).
  destruct (verify_match_spec w_lb 0) as (_ & _ & H0).
  split; [apply H1; vm_compute; [reflexivity | discriminate] |].
  apply H0. vm_compute. split; reflexivity.
Defined.

Lemma read_monotone_witness :
  reachable true w_one /\ read true 1 (cursor hello 1) w_one = Done false w_two /\
  (source_offset w_one < source_offset w_two)%Z.
Proof.
  split; [exact reachable_w_one |]. split; [vm_compute; reflexivity |].
  destruct (read_monotone true 1 (cursor hello 1) w_one false w_two)
    as (_ & _ & _ & H);
    [exact reachable_w_one | apply reader_ok_cursor | vm_compute; lia
    | vm_compute; lia | vm_compute; reflexivity |].
  apply H. vm_compute. lia.
Defined.

Lemma new_initial_witness :
  0 < 3 /\ 2 < 3 /\
  exists s, new 3 0 2 = Ok s /\ get_absolute_offset s 0 = (-2)%Z.
Proof.
  split; [lia |]. split; [lia |].
  destruct (new_initial true 3 0 2) as (s & E & _ & _ & _ & _ & H); [lia | lia |].
  exists s. split; [exact E | exact H].
Defined.

Lemma reachable_match_offset_witness :
  reachable true w_one /\ bytes_to_process true w_one = Some ["H"%byte].
Proof.
  split; [exact reachable_w_one |].
  destruct (reachable_match_offset true w_one reachable_w_one) as (_ & _ & H).
  rewrite H. vm_compute. reflexivity.
Defined.

Lemma read_no_panic_witness :
  len w_one <= capacity w_one /\ match_offset w_one <= 1 /\ 1 <= len w_one /\
  read true 1 (cursor hello 1) w_one <> Panic.
Proof.
  split; [vm_compute; lia |]. split; [vm_compute; lia |]. split; [vm_compute; lia |].
  apply read_no_panic; vm_compute; lia.
Defined.

(** * Further properties of the code *)

(** ** [verify_match] and [get_absolute_offset] *)

(** A match start is verified exactly when its absolute offset in the
    source is not negative, i.e. it is not in the zero padding. *)
Theorem verify_match_absolute s p :
  verify_match s p = true <-> (0 <= get_absolute_offset s p)%Z.
Proof.
  unfold verify_match, get_absolute_offset.
  destruct (Z.leb_spec 0 (source_offset s)).
  - split; [lia | auto].
  - destruct (Z.leb_spec (- source_offset s) (Z.of_nat p)); split; lia.
Qed.

(** ** The configuration is never changed by [read] *)

Lemma make_room_config d mo s a s1 :
  (make_room d mo s = Done a s1 \/ make_room d mo s = Fail CapacityExceeded s1) ->
  min_capacity s1 = min_capacity s /\ max_capacity s1 = max_capacity s /\
  max_lookbehind s1 = max_lookbehind s.
Proof.
  unfold make_room, bind, get, put, debug_assert, unwrap, ret, throw.
  cbn [match_offset len max_lookbehind buffer set_match_offset min_capacity max_capacity].
  intros [E | E];
  repeat match type of E with
  | context [if ?b then _ else _] => destruct b
  | context [match ?x with Some _ => _ | None => _ end] => destruct x
  end; try discriminate; inversion E; subst; auto.
Qed.

Lemma fill_config r s flag e s1 :
  (fill r s = Done flag s1 \/ fill r s = Fail e s1) ->
  min_capacity s1 = min_capacity s /\ max_capacity s1 = max_capacity s /\
  max_lookbehind s1 = max_lookbehind s.
Proof.
  unfold fill, bind, get, put, unwrap, ret, throw. intros [E | E];
  (destruct (slice _ _ _); [| discriminate]);
  destruct (r _); inversion E; subst; auto.
Qed.

(** [read] keeps [min_capacity], [max_capacity] and [max_lookbehind]
    (the values the accessors of lines 57-70 return), whether it succeeds
    or fails. *)
Theorem read_keeps_config d mo r s flag e s' :
  (read d mo r s = Done flag s' \/ read d mo r s = Fail e s') ->
  min_capacity s' = min_capacity s /\ max_capacity s' = max_capacity s /\
  max_lookbehind s' = max_lookbehind s.
Proof.
  rewrite read_eq. intros H.
  destruct (make_room d mo s) as [u s1 | e1 s1 |] eqn:Em;
    [| | destruct H; discriminate].
  - destruct (fill_config r s1 flag e s' H) as (A & B & C).
    destruct (make_room_config d mo s u s1 (or_introl Em)) as (A' & B' & C').
    repeat split; congruence.
  - assert (e1 = e /\ s1 = s') as [-> ->] by (destruct H as [H | H]; inversion H; auto).
    destruct (make_room_fail d mo s e s' Em) as [-> _].
    exact (make_room_config d mo s tt s' (or_intror Em)).
Qed.

(** ** Retrying after [CapacityExceeded] *)

Lemma make_room_set_match_offset d mo s :
  make_room d mo s <> Panic ->
  make_room d mo (set_match_offset mo s) = make_room d mo s.
Proof.
  unfold make_room, bind, get, put, debug_assert.
  cbn [match_offset len max_lookbehind buffer set_match_offset min_capacity max_capacity].
  rewrite Nat.leb_refl, andb_false_r. intros H.
  destruct (d && negb (match_offset s <=? mo)); [exfalso; apply H; reflexivity | reflexivity].
Qed.

(** Once a call fails with [CapacityExceeded], the window is left so that
    the same call fails in the same way again, whatever the source: the
    failure is not cleared by retrying. *)
Theorem capacity_exceeded_sticky d mo r r' s s' :
  read d mo r s = Fail CapacityExceeded s' ->
  read d mo r' s' = Fail CapacityExceeded s'.
Proof.
  rewrite !read_eq. intros E.
  destruct (make_room d mo s) as [u s1 | e1 s1 |] eqn:Em; try discriminate.
  - apply fill_fail in E as [E _]. discriminate.
  - inversion E; subst; clear E.
    pose proof (make_room_fail d mo s CapacityExceeded s' Em) as [_ ->].
    rewrite make_room_set_match_offset by congruence. rewrite Em. reflexivity.
Qed.


(** ** Capacity bounds *)

Lemma make_room_capacity d mo s u s1 :
  len s <= capacity s -> match_offset s <= mo -> mo <= len s ->
  make_room d mo s = Done u s1 ->
  (mo <= max_lookbehind s /\
   ((capacity s < min_capacity s /\ capacity s1 = min_capacity s) \/
    (min_capacity s <= capacity s /\ capacity s1 = capacity s * 2 /\
     capacity s * 2 <= max_capacity s))) \/
  (max_lookbehind s < mo /\ capacity s1 = capacity s).
Proof.
  unfold capacity. intros Hinv H1 H2 E.
  destruct (Nat.le_gt_cases mo (max_lookbehind s)) as [Hg | Hs].
  - rewrite make_room_grow_eq in E by (auto; lia).
    left. split; [exact Hg |].
    destruct (Nat.ltb_spec (length (buffer s)) (min_capacity s)).
    + inversion E; subst; clear E. simpl. rewrite length_grown by lia. left; auto.
    + destruct (Nat.ltb_spec (max_capacity s) (length (buffer s) * 2));
        [discriminate |].
      inversion E; subst; clear E. simpl. rewrite length_grown by lia. right; auto.
  - rewrite make_room_shift_eq in E by (auto; lia).
    inversion E; subst; clear E. right. split; [exact Hs |].
    unfold shifted; simpl. rewrite length_splice, length_firstn_skipn; lia.
Qed.

Lemma read_capacity_step d mo r s flag s' :
  window_inv s ->
  (min_capacity s <= capacity s \/ len s = max_lookbehind s) ->
  capacity s <= Nat.max (min_capacity s) (max_capacity s) ->
  match_offset s <= mo -> mo <= len s ->
  read d mo r s = Done flag s' ->
  min_capacity s' <= capacity s' /\
  capacity s' <= Nat.max (min_capacity s') (max_capacity s').
Proof.
  intros (Hinv & Hmin & _ & Hmo & Hlb) Hcase Hbound H1 H2 E.
  rewrite read_eq in E.
  destruct (make_room d mo s) as [u s1 | e s1 |] eqn:Em; try discriminate.
  destruct (make_room_done d mo s u s1 Hinv Hmin H1 H2 Em)
    as (Hroom & _ & Hmin1 & Hmax1 & _ & _).
  destruct (fill_done r s1 flag s' ltac:(lia) E)
    as (bs & _ & _ & _ & Hc & _ & _ & Hmin' & Hmax' & _).
  rewrite Hc, Hmin', Hmax', Hmin1, Hmax1.
  destruct (make_room_capacity d mo s u s1 Hinv H1 H2 Em)
    as [(_ & [(Hlt & ->) | (Hge & -> & Hle)]) | (Hs & ->)]; lia.
Qed.

Lemma reachable_capacity d s :
  reachable d s ->
  (min_capacity s <= capacity s \/ len s = max_lookbehind s) /\
  capacity s <= Nat.max (min_capacity s) (max_capacity s).
Proof.
  induction 1 as [a b c s E | s mo r flag s' Hreach IH Hr H1 H2 E].
  - unfold new in E.
    destruct (Nat.eqb_spec a 0); [discriminate |].
    destruct (Nat.leb_spec a c); [discriminate |].
    inversion E; subst; clear E. unfold capacity; simpl.
    rewrite repeat_length. lia.
  - destruct IH as [Hcase Hbound].
    destruct (read_capacity_step d mo r s flag s' (reachable_inv d s Hreach)
                Hcase Hbound H1 H2 E) as [A B].
    split; [left; exact A | exact B].
Qed.

(** The doc comment of [min_capacity] (lines 10-11): after a successful
    read, the capacity is at least [min_capacity]. *)
Theorem read_capacity_at_least_min d mo r s flag s' :
  reachable d s -> match_offset s <= mo -> mo <= len s ->
  read d mo r s = Done flag s' ->
  min_capacity s' <= capacity s'.
Proof.
  intros Hreach H1 H2 E.
  destruct (reachable_capacity d s Hreach) as [Hcase Hbound].
  exact (proj1 (read_capacity_step d mo r s flag s' (reachable_inv d s Hreach)
                  Hcase Hbound H1 H2 E)).
Qed.

(** The storage of a window never outgrows its configuration: the
    capacity stays at most [max(min_capacity, max_capacity)]. *)
Theorem reachable_capacity_bound d s :
  reachable d s -> capacity s <= Nat.max (min_capacity s) (max_capacity s).
Proof. intros H. exact (proj2 (reachable_capacity d s H)). Qed.

(** ** The content after a successful [read] *)

Lemma firstn_write_into dst bs :
  length bs <= length dst -> firstn (length bs) (write_into dst bs) = bs.
Proof.
  intros H. unfold write_into. rewrite firstn_all2 with (l := bs) by lia.
  rewrite firstn_app, Nat.sub_diag. simpl. rewrite app_nil_r.
  apply firstn_all.
Qed.

Lemma firstn_filled_bytes s bs :
  len s <= length (buffer s) -> length bs <= length (buffer s) - len s ->
  firstn (len s + length bs) (filled s bs) = firstn (len s) (buffer s) ++ bs.
Proof.
  intros H Hb. unfold filled.
  set (part := write_into (firstn (length (buffer s) - len s) (skipn (len s) (buffer s))) bs).
  assert (Hp : length part = length (buffer s) - len s).
  { unfold part. rewrite length_write_into, length_firstn_skipn; lia. }
  pose proof (firstn_splice_part (buffer s) (len s) (length (buffer s)) part H) as F.
  replace (len s + length bs) with (Nat.min (len s + length bs) (len s + length part)) by lia.
  rewrite <- firstn_firstn, F, firstn_app, length_firstn, Nat.min_l by lia.
  rewrite firstn_firstn, Nat.min_r by lia.
  replace (len s + length bs - len s) with (length bs) by lia.
  f_equal. unfold part. apply firstn_write_into.
  rewrite length_firstn_skipn; lia.
Qed.

Lemma make_room_content d mo s u s1 :
  len s <= capacity s -> match_offset s <= mo -> mo <= len s ->
  make_room d mo s = Done u s1 ->
  content s1 = skipn (discarded s mo) (content s) /\
  len s1 = len s - discarded s mo /\ len s1 <= capacity s1 /\
  source_offset s1 = (source_offset s + Z.of_nat (discarded s mo))%Z /\
  max_lookbehind s1 = max_lookbehind s.
Proof.
  unfold capacity, content, discarded. intros Hinv H1 H2 E.
  destruct (Nat.leb_spec mo (max_lookbehind s)) as [Hg | Hs].
  - rewrite make_room_grow_eq in E by (auto; lia).
    destruct (Nat.ltb_spec (length (buffer s)) (min_capacity s));
      [| destruct (Nat.ltb_spec (max_capacity s) (length (buffer s) * 2));
         [discriminate |]];
      inversion E; subst; clear E; simpl;
      rewrite firstn_grown, length_grown, Nat.sub_0_r, Z.add_0_r by lia;
      repeat split; lia.
  - rewrite make_room_shift_eq in E by (auto; lia).
    inversion E; subst; clear E. unfold shifted; simpl.
    set (dd := mo - max_lookbehind s).
    pose proof (firstn_splice_part (buffer s) 0 (0 + (len s - dd))
                  (firstn (len s - dd) (skipn dd (buffer s)))) as F.
    rewrite length_firstn_skipn in F by lia. simpl in F.
    rewrite F by lia. rewrite skipn_firstn_comm.
    rewrite length_splice, length_firstn_skipn by lia.
    repeat split; lia.
Qed.

Lemma read_content_step d mo r s flag s' :
  len s <= capacity s -> reader_ok r ->
  match_offset s <= mo -> mo <= len s ->
  read d mo r s = Done flag s' ->
  exists bs,
    r (capacity s' - (len s - discarded s mo)) = IoOk bs /\
    content s' = skipn (discarded s mo) (content s) ++ bs /\
    len s' = len s - discarded s mo + length bs /\ len s' <= capacity s' /\
    source_offset s' = (source_offset s + Z.of_nat (discarded s mo))%Z /\
    max_lookbehind s' = max_lookbehind s.
Proof.
  intros Hinv Hr H1 H2 E. rewrite read_eq in E.
  destruct (make_room d mo s) as [u s1 | e s1 |] eqn:Em; try discriminate.
  destruct (make_room_content d mo s u s1 Hinv H1 H2 Em)
    as (Hc1 & Hl1 & Hcap1 & Hso1 & Hlb1).
  pose proof E as E'.
  unfold capacity in Hcap1. rewrite fill_eq in E' by exact Hcap1.
  destruct (r (length (buffer s1) - len s1)) as [bs |] eqn:Hbs; [| discriminate].
  inversion E'; subst; clear E'.
  pose proof (Hr _ _ Hbs) as Hle.
  exists bs. unfold capacity, content in *; simpl.
  rewrite length_filled, <- Hl1 by exact Hcap1.
  split; [exact Hbs |].
  split; [rewrite firstn_filled_bytes by lia; congruence |].
  repeat split; lia.
Qed.


(** Every byte a successful call keeps is still at the same absolute
    source offset: window index [p] before the call is index
    [p - discarded] after it, with the same byte and the same
    [get_absolute_offset]. *)
Theorem read_keeps_absolute_positions d mo r s flag s' p :
  len s <= capacity s -> reader_ok r ->
  match_offset s <= mo -> mo <= len s ->
  read d mo r s = Done flag s' ->
  discarded s mo <= p -> p < len s ->
  nth_error (buffer s') (p - discarded s mo) = nth_error (buffer s) p /\
  get_absolute_offset s' (p - discarded s mo) = get_absolute_offset s p.
Proof.
  intros Hinv Hr H1 H2 E Hp1 Hp2.
  destruct (read_content_step d mo r s flag s' Hinv Hr H1 H2 E)
    as (bs & _ & Hc & Hl & Hcap & Hso & _).
  unfold content, get_absolute_offset in *.
  split.
  - assert (Hn : nth_error (firstn (len s') (buffer s')) (p - discarded s mo)
                 = nth_error (firstn (len s) (buffer s)) p).
    { rewrite Hc, nth_error_app1.
      - rewrite nth_error_skipn. f_equal. lia.
      - rewrite length_skipn, length_firstn. unfold capacity in Hinv. lia. }
    rewrite !nth_error_firstn in Hn.
    destruct (Nat.ltb_spec (p - discarded s mo) (len s')); [| lia].
    destruct (Nat.ltb_spec p (len s)); [exact Hn | lia].
  - rewrite Hso. lia.
Qed.

(** ** A session over one [Cursor] *)

Lemma firstn_app_skipn {A} (l : list A) a b :
  firstn a l ++ firstn b (skipn a l) = firstn (a + b) l.
Proof.
  revert a. induction l as [| x l IH]; intros [| a]; simpl;
    rewrite ?firstn_nil, ?skipn_nil; auto.
  f_equal. apply IH.
Qed.

Lemma skipn_padded lb data pos :
  skipn (lb + pos) (padded lb data) = skipn pos data.
Proof.
  unfold padded. rewrite skipn_app, repeat_length.
  replace (lb + pos - lb) with pos by lia.
  rewrite skipn_all2 by (rewrite repeat_length; lia). reflexivity.
Qed.

Lemma length_content s : len s <= capacity s -> length (content s) = len s.
Proof. unfold content, capacity. intros. rewrite length_firstn. lia. Qed.

Lemma session_reachable d data s pos : session d data s pos -> reachable d s.
Proof.
  induction 1.
  - eapply reachable_new; eassumption.
  - eapply reachable_read; [eassumption | apply reader_ok_cursor | eassumption.. ].
Qed.

Lemma session_inv_holds d data s pos :
  session d data s pos -> session_inv data s pos.
Proof.
  intros Hs. induction Hs as [a b c s E | s pos mo flag s' Hs IH H1 H2 E].
  - unfold new in E.
    destruct (Nat.eqb_spec a 0); [discriminate |].
    destruct (Nat.leb_spec a c); [discriminate |].
    inversion E; subst; clear E. unfold session_inv, content, padded; simpl.
    replace (- Z.of_nat c + Z.of_nat c)%Z with 0%Z by lia. simpl.
    rewrite firstn_all2 by (rewrite repeat_length; lia).
    rewrite firstn_app, repeat_length, Nat.sub_diag, firstn_all2
      by (rewrite repeat_length; lia).
    simpl. rewrite app_nil_r. repeat split; lia.
  - destruct (reachable_inv d s (session_reachable d data s pos Hs))
      as (Hinv & _ & _ & _ & _).
    destruct IH as (Hk & Hpos & Hc & Hpd).
    destruct (read_content_step d mo (cursor data pos) s flag s' Hinv
                (reader_ok_cursor data pos) H1 H2 E)
      as (bs & Hbs & Hc' & Hl' & Hcap' & Hso' & Hlb').
    set (dd := discarded s mo) in *.
    assert (Hdd : dd <= len s).
    { unfold dd, discarded. destruct (Nat.leb_spec mo (max_lookbehind s)); lia. }
    set (n := capacity s' - (len s - dd)) in *.
    unfold cursor in Hbs. injection Hbs as Hbs.
    assert (Hbn : length bs <= n) by (rewrite <- Hbs, length_firstn; lia).
    assert (Hbd : length bs <= length data - pos)
      by (rewrite <- Hbs, length_firstn, length_skipn; lia).
    set (k := Z.to_nat (source_offset s + Z.of_nat (max_lookbehind s))) in *.
    assert (Hk' : Z.to_nat (source_offset s' + Z.of_nat (max_lookbehind s')) = k + dd).
    { unfold k. rewrite Hso', Hlb'. lia. }
    unfold session_inv. rewrite Hk', Hlb'.
    split; [rewrite Hso'; lia |].
    split; [lia |].
    assert (Hcx : content s'
                  = firstn (len s - dd + n) (skipn (k + dd) (padded (max_lookbehind s) data))).
    { rewrite Hc', Hc, skipn_firstn_comm, skipn_skipn, <- Hbs.
      replace pos with (k + len s - max_lookbehind s) by lia.
      rewrite <- (skipn_padded (max_lookbehind s) data (k + len s - max_lookbehind s)).
      replace (max_lookbehind s + (k + len s - max_lookbehind s))
        with ((len s - dd) + (dd + k)) by lia.
      rewrite <- (skipn_skipn (len s - dd) (dd + k)).
      rewrite (Nat.add_comm dd k). apply firstn_app_skipn. }
    split; [| lia].
    transitivity (firstn (len s')
                    (firstn (len s - dd + n) (skipn (k + dd) (padded (max_lookbehind s) data)))).
    + rewrite <- Hcx. symmetry. apply firstn_all2.
      rewrite length_content by exact Hcap'. lia.
    + rewrite firstn_firstn. f_equal. lia.
Qed.

(** In a session over a cursor on [data], the window is always the slice
    [[source_offset, source_offset + len)] of the source preceded by
    [max_lookbehind] zero bytes, and the cursor stands at absolute offset
    [source_offset + len]: nothing is lost, duplicated or reordered. *)
Theorem session_window d data s pos :
  session d data s pos ->
  Z.of_nat pos = (source_offset s + Z.of_nat (len s))%Z /\
  content s = firstn (len s)
                (skipn (Z.to_nat (source_offset s + Z.of_nat (max_lookbehind s)))
                   (padded (max_lookbehind s) data)).
Proof.
  intros Hs. destruct (session_inv_holds d data s pos Hs) as (Hk & Hpos & Hc & _).
  split; [lia | exact Hc].
Qed.

(** [get_absolute_offset] is right: in a session over a cursor on [data],
    the byte at window index [p < len] is [data[get_absolute_offset(p)]],
    or a zero padding byte when that offset is negative. *)
Theorem session_byte_at_absolute_offset d data s pos p :
  session d data s pos -> p < len s ->
  nth_error (buffer s) p =
  if (get_absolute_offset s p <? 0)%Z then Some Byte.x00
  else nth_error data (Z.to_nat (get_absolute_offset s p)).
Proof.
  intros Hs Hp.
  destruct (session_inv_holds d data s pos Hs) as (Hk & _ & Hc & _).
  assert (Hn : nth_error (content s) p = nth_error (buffer s) p).
  { unfold content. rewrite nth_error_firstn.
    destruct (Nat.ltb_spec p (len s)); [reflexivity | lia]. }
  rewrite <- Hn, Hc, nth_error_firstn.
  destruct (Nat.ltb_spec p (len s)); [| lia].
  rewrite nth_error_skipn. unfold padded, get_absolute_offset.
  set (k := Z.to_nat (source_offset s + Z.of_nat (max_lookbehind s))).
  destruct (Z.ltb_spec (Z.of_nat p + source_offset s) 0).
  - rewrite nth_error_app1 by (rewrite repeat_length; lia).
    apply nth_error_repeat. lia.
  - rewrite nth_error_app2 by (rewrite repeat_length; lia).
    rewrite repeat_length. f_equal. lia.
Qed.

(** A [true] result in a session over a cursor on [data] means the whole
    source has been consumed: the cursor and the end of the window are
    both at absolute offset [data.len()]. *)
Theorem session_complete_at_end d data s pos mo s' :
  session d data s pos -> match_offset s <= mo -> mo <= len s ->
  read d mo (cursor data pos) s = Done true s' ->
  pos = length data /\
  Z.of_nat (length data) = (source_offset s' + Z.of_nat (len s'))%Z.
Proof.
  intros Hs H1 H2 E.
  pose proof (session_read d data s pos mo true s' Hs H1 H2 E) as Hs'.
  destruct (session_inv_holds d data s pos Hs) as (Hk & Hpos & Hc & Hle).
  destruct (session_inv_holds d data s' _ Hs') as (Hk' & Hpos' & _).
  destruct (reachable_inv d s (session_reachable d data s pos Hs))
    as (Hinv & Hmin & _ & _ & _).
  (* the fill step got no byte although it had room for one *)
  pose proof E as E'. rewrite read_eq in E'.
  destruct (make_room d mo s) as [u s1 | e s1 |] eqn:Em; try discriminate.
  destruct (make_room_done d mo s u s1 Hinv Hmin H1 H2 Em) as (Hroom & _).
  destruct (fill_done (cursor data pos) s1 true s' ltac:(lia) E')
    as (bs & Hbs & Hf & Hl & _).
  destruct bs as [| b bs]; [| discriminate]. simpl in Hl.
  unfold cursor in Hbs. injection Hbs as Hbs.
  assert (Hge : length data <= pos).
  { apply (f_equal (@length byte)) in Hbs.
    rewrite length_firstn, length_skipn in Hbs. simpl in Hbs.
    unfold capacity in *. lia. }
  assert (Hd : len s' = len s - discarded s mo).
  { destruct (make_room_content d mo s u s1 Hinv H1 H2 Em) as (_ & Hl1 & _).
    lia. }
  split; [lia |].
  rewrite Hd, Nat.sub_diag, Nat.add_0_r in Hpos'. lia.
Qed.

(** ** Concrete runs of the further properties *)

Lemma session_w_lb : session true hello w_lb 1.
Proof.
  change 1 with (0 + (len w_lb - (len w_lb0 - discarded w_lb0 1))).
  apply (session_read true hello w_lb0 0 1 false w_lb).
  - apply (session_new true hello 2 0 1). reflexivity.
  - simpl; lia.
  - simpl; lia.
  - vm_compute. reflexivity.
Qed.

Lemma session_w_one : session true ["H"%byte] w_one 1.
Proof.
  change 1 with (0 + (len w_one - (len w_start - discarded w_start 0))).
  apply (session_read true ["H"%byte] w_start 0 0 false w_one).
  - apply (session_new true ["H"%byte] 1 0 0). reflexivity.
  - simpl; lia.
  - simpl; lia.
  - vm_compute. reflexivity.
Qed.

Lemma read_keeps_config_witness :
  read true 1 (fun _ => IoErr) w_one = Fail SourceIoError w_err /\
  max_lookbehind w_err = 0 /\ min_capacity w_err = 1.
Proof.
  split; [vm_compute; reflexivity |].
  destruct (read_keeps_config true 1 (fun _ => IoErr) w_one true SourceIoError w_err)
    as (A & _ & C); [right; vm_compute; reflexivity |].
  split; [exact C | exact A].
Defined.

Lemma capacity_exceeded_sticky_witness :
  read true 0 (cursor hello 4) w_full = Fail CapacityExceeded w_full /\
  read true 0 (fun _ => IoErr) w_full = Fail CapacityExceeded w_full.
Proof.
  split; [vm_compute; reflexivity |].
  apply (capacity_exceeded_sticky true 0 (cursor hello 4) (fun _ => IoErr) w_full w_full).
  vm_compute. reflexivity.
Defined.

Lemma read_capacity_at_least_min_witness :
  reachable true w_one /\ read true 1 (cursor hello 1) w_one = Done false w_two /\
  min_capacity w_two <= capacity w_two.
Proof.
  split; [exact reachable_w_one |]. split; [vm_compute; reflexivity |].
  apply (read_capacity_at_least_min true 1 (cursor hello 1) w_one false w_two);
    [exact reachable_w_one | vm_compute; lia | vm_compute; lia | vm_compute; reflexivity].
Defined.

Lemma reachable_capacity_bound_witness :
  reachable true w_one /\
  capacity w_one <= Nat.max (min_capacity w_one) (max_capacity w_one).
Proof.
  split; [exact reachable_w_one |].
  exact (reachable_capacity_bound true w_one reachable_w_one).
Defined.


Lemma read_keeps_absolute_positions_witness :
  read true 2 (cursor hello 1) w_lb = Done false w_lb2 /\
  nth_error (buffer w_lb2) 0 = nth_error (buffer w_lb) 1 /\
  get_absolute_offset w_lb2 0 = get_absolute_offset w_lb 1.
Proof.
  split; [vm_compute; reflexivity |].
  apply (read_keeps_absolute_positions true 2 (cursor hello 1) w_lb false w_lb2 1);
    [vm_compute; lia | apply reader_ok_cursor | vm_compute; lia | vm_compute; lia
    | vm_compute; reflexivity | vm_compute; lia | vm_compute; lia].
Defined.

Lemma session_window_witness :
  session true hello w_lb 1 /\ Z.of_nat 1 = (source_offset w_lb + Z.of_nat (len w_lb))%Z.
Proof.
  split; [exact session_w_lb |].
  exact (proj1 (session_window true hello w_lb 1 session_w_lb)).
Defined.

Lemma session_byte_at_absolute_offset_witness :
  session true hello w_lb 1 /\ 0 < len w_lb /\ nth_error (buffer w_lb) 0 = Some Byte.x00.
Proof.
  split; [exact session_w_lb |]. split; [vm_compute; lia |].
  rewrite (session_byte_at_absolute_offset true hello w_lb 1 0 session_w_lb)
    by (vm_compute; lia).
  vm_compute. reflexivity.
Defined.

Lemma session_complete_at_end_witness :
  session true ["H"%byte] w_one 1 /\
  read true 1 (cursor ["H"%byte] 1) w_one = Done true w_end /\
  Z.of_nat 1 = (source_offset w_end + Z.of_nat (len w_end))%Z.
Proof.
  split; [exact session_w_one |]. split; [vm_compute; reflexivity |].
  exact (proj2 (session_complete_at_end true ["H"%byte] w_one 1 1 w_end session_w_one
                  ltac:(vm_compute; lia) ltac:(vm_compute; lia)
                  ltac:(vm_compute; reflexivity))).
Defined.

